(** * The weak default of the trace hook [_on_trace]

    Source: [src/weak_on_trace.c]

<<
    __attribute__((weak)) void _on_trace(unsigned int, const unsigned char*, size_t) {}
>>

    The translation unit defines one function, with weak binding, three
    unnamed parameters and an empty body.  This development embeds it in a
    small abstract C machine (byte-addressed memory, allocator table, output
    stream, locks), in which a function body is a tree of machine operations,
    and proves what the empty body does and does not do. *)

From Stdlib Require Import ZArith List Lia.
From stdpp Require Import gmap strings list.

Local Open Scope Z_scope.

(** ** The abstract machine *)

Module CMachine.

(** The three C types of the signature, as integers: [unsigned int],
    [size_t] (an unsigned word, 64 bits here) and pointers, which are
    addresses; the null pointer is address 0.  The function computes with
    none of them, so no wrap-around is written out. *)
Abbreviation uint := Z (only parsing).
Abbreviation size_t := Z (only parsing).
Abbreviation ptr := Z (only parsing).

Definition NULL : ptr := 0.

Definition is_size_t (n : size_t) : Prop := 0 <= n < 2 ^ 64.

(** The state a C function can observe or change. *)
Record state := State {
  mem : gmap Z Z;        (* readable bytes: address to byte value *)
  heap : gmap Z Z;       (* live allocations: base address to size *)
  out : list Z;          (* bytes written to the output streams so far *)
  held : gset nat        (* locks that are taken *)
}.

(** What a function body can ask of the machine. *)
Inductive op : Type -> Type :=
| Load (a : ptr) : op Z
| Store (a : ptr) (v : Z) : op unit
| Malloc (n : size_t) : op ptr
| Free (a : ptr) : op unit
| Output (bs : list Z) : op unit
| Acquire (l : nat) : op unit
| Release (l : nat) : op unit
| Yield : op unit
| Abort (code : Z) : op Empty_set.

(** A function body: return, or perform an operation and go on with its
    answer. *)
Inductive prog (R : Type) : Type :=
| Ret (r : R)
| Do {X : Type} (o : op X) (k : X -> prog R).

Arguments Ret {R} r.
Arguments Do {R X} o k.

Fixpoint bind {A B : Type} (p : prog A) (f : A -> prog B) : prog B :=
  match p with
  | Ret a => f a
  | Do o k => Do o (fun x => bind (k x) f)
  end.

(** The record of one performed operation. *)
Inductive event :=
| EvLoad (a : ptr) (v : Z)
| EvStore (a : ptr) (v : Z)
| EvMalloc (n : size_t) (base : ptr)
| EvFree (a : ptr)
| EvOutput (bs : list Z)
| EvAcquire (l : nat)
| EvRelease (l : nat)
| EvYield.

Inductive fault :=
| SegFault (a : ptr)
| InvalidFree (a : ptr)
| OutOfMemory
| WouldBlock (l : nat)
| NotOwner (l : nat)
| Aborted (code : Z).

(** First address above everything mapped (and above the null page). *)
Definition brk (m : gmap Z Z) : ptr :=
  map_fold (fun a _ top => Z.max (a + 1) top) 1 m.

(** The cells [base, base + n). *)
Definition cells (base : ptr) (n : Z) : list Z :=
  map (fun i => base + Z.of_nat i) (seq 0 (Z.to_nat n)).

Definition map_cells (base : ptr) (n : Z) (m : gmap Z Z) : gmap Z Z :=
  fold_right (fun a acc => <[a := 0]> acc) m (cells base n).

Definition unmap_cells (base : ptr) (n : Z) (m : gmap Z Z) : gmap Z Z :=
  fold_right (fun a acc => delete a acc) m (cells base n).

Definition perform {X : Type} (o : op X) (s : state)
  : fault + (X * state * event) :=
  match o in op X return fault + (X * state * event) with
  | Load a =>
      match mem s !! a with
      | Some v => inr (v, s, EvLoad a v)
      | None => inl (SegFault a)
      end
  | Store a v =>
      match mem s !! a with
      | Some _ =>
          inr (tt, State (<[a := v]> (mem s)) (heap s) (out s) (held s),
               EvStore a v)
      | None => inl (SegFault a)
      end
  | Malloc n =>
      if decide (0 < n) then
        let base := brk (mem s) in
        inr (base,
             State (map_cells base n (mem s)) (<[base := n]> (heap s))
                   (out s) (held s),
             EvMalloc n base)
      else inl OutOfMemory
  | Free a =>
      match heap s !! a with
      | Some n =>
          inr (tt,
               State (unmap_cells a n (mem s)) (delete a (heap s))
                     (out s) (held s),
               EvFree a)
      | None => inl (InvalidFree a)
      end
  | Output bs =>
      inr (tt, State (mem s) (heap s) (out s ++ bs) (held s), EvOutput bs)
  | Acquire l =>
      if decide (l ∈ held s) then inl (WouldBlock l)
      else inr (tt, State (mem s) (heap s) (out s) ({[l]} ∪ held s),
                EvAcquire l)
  | Release l =>
      if decide (l ∈ held s)
      then inr (tt, State (mem s) (heap s) (out s) (held s ∖ {[l]}),
                EvRelease l)
      else inl (NotOwner l)
  | Yield => inr (tt, s, EvYield)
  | Abort code => inl (Aborted code)
  end.

(** The result of running a body to its end: it returns a value in a final
    state, or it stops on a fault; either way with the trace of the
    operations it performed. *)
Inductive outcome (R : Type) : Type :=
| Returns (r : R) (s : state) (tr : list event)
| Crashes (f : fault) (tr : list event).

Arguments Returns {R} r s tr.
Arguments Crashes {R} f tr.

Definition log {R : Type} (ev : event) (o : outcome R) : outcome R :=
  match o with
  | Returns r s tr => Returns r s (ev :: tr)
  | Crashes f tr => Crashes f (ev :: tr)
  end.

(** [o], reached after the operations [tr]. *)
Definition after {R : Type} (tr : list event) (o : outcome R) : outcome R :=
  match o with
  | Returns r s tr' => Returns r s (tr ++ tr')
  | Crashes f tr' => Crashes f (tr ++ tr')
  end.

Fixpoint exec {R : Type} (p : prog R) (s : state) : outcome R :=
  match p with
  | Ret r => Returns r s []
  | Do o k =>
      match perform o s with
      | inl f => Crashes f []
      | inr (x, s', ev) => log ev (exec (k x) s')
      end
  end.

Definition trace_of {R : Type} (o : outcome R) : list event :=
  match o with
  | Returns _ _ tr => tr
  | Crashes _ tr => tr
  end.

(** Classes of events. *)
Definition is_deref (ev : event) : bool :=
  match ev with
  | EvLoad _ _ | EvStore _ _ => true
  | _ => false
  end.

Definition is_write (ev : event) : bool :=
  match ev with
  | EvStore _ _ | EvMalloc _ _ | EvFree _ => true
  | _ => false
  end.

Definition is_output (ev : event) : bool :=
  match ev with
  | EvOutput _ => true
  | _ => false
  end.

Definition is_sync (ev : event) : bool :=
  match ev with
  | EvAcquire _ | EvRelease _ | EvYield => true
  | _ => false
  end.

Definition touches (a : ptr) (ev : event) : bool :=
  match ev with
  | EvLoad b _ | EvStore b _ | EvFree b => bool_decide (a = b)
  | _ => false
  end.

End CMachine.

Import CMachine.

(** ** The translation unit [weak_on_trace.c] *)

(** [void _on_trace(unsigned int, const unsigned char*, size_t) {}]: the
    parameters have no names, so the body cannot mention them, and the body
    is the empty block. *)
Definition _on_trace (_ : uint) (_ : ptr) (_ : size_t) : prog unit := Ret tt.

(** The signature shared by the default and by any definition that takes its
    place. *)
Definition hook_t : Type := uint -> ptr -> size_t -> prog unit.

(** The arguments of one call. *)
Record call := Call {
  c_event_id : uint;
  c_data : ptr;
  c_length : size_t
}.

Definition invoke (h : hook_t) (c : call) : prog unit :=
  h (c_event_id c) (c_data c) (c_length c).

(** A straight-line caller: one call after the other. *)
Fixpoint call_seq (h : hook_t) (cs : list call) : prog unit :=
  match cs with
  | [] => Ret tt
  | c :: rest => bind (invoke h c) (fun _ => call_seq h rest)
  end.

(** ** Observations on outcomes and buffers *)

Definition succeeds {R : Type} (o : outcome R) : bool :=
  match o with
  | Returns _ _ _ => true
  | Crashes _ _ => false
  end.

Definition returned {R : Type} (o : outcome R) : option R :=
  match o with
  | Returns r _ _ => Some r
  | Crashes _ _ => None
  end.

Definition final_state {R : Type} (o : outcome R) : option state :=
  match o with
  | Returns _ s _ => Some s
  | Crashes _ _ => None
  end.

(** What the bytes [data, data + length) hold; [None] for an unmapped cell. *)
Definition read_buffer (data : ptr) (length : size_t) (s : state)
  : list (option Z) :=
  map (fun a => mem s !! a) (cells data length).

(** The caller's obligation in the words of the specification (section 4.1):
    [data] may be null when [length] is zero and must otherwise point to at
    least [length] readable bytes.  The source states no precondition; this
    predicate is only what the default's own requirement is compared with. *)
Definition spec_valid_buffer (s : state) (data : ptr) (length : size_t)
  : Prop :=
  length = 0 \/ forall i, 0 <= i < length -> is_Some (mem s !! (data + i)).

(** ** Symbol resolution at link time

    [__attribute__((weak))] makes the compiler emit the definition with weak
    binding; that much is in the source.  What the binding is for is decided
    by the static linker, which is the toolchain's. *)

Module Linker.

Inductive binding := STB_WEAK | STB_GLOBAL.

Record symbol := Symbol {
  st_name : string;
  st_bind : binding;
  st_code : hook_t
}.

(** An object file, as far as linking goes: the function symbols it
    defines. *)
Definition object : Type := list symbol.

Inductive linked :=
| Resolved (f : hook_t)
| MultipleDefinition
| UndefinedReference.

Definition is_global (d : symbol) : bool :=
  match st_bind d with
  | STB_GLOBAL => true
  | STB_WEAK => false
  end.

Definition definitions (name : string) (objs : list object) : list symbol :=
  List.filter (fun d => String.eqb (st_name d) name) (concat objs).

(** Modelled from the spec: the static linker's choice among the definitions
    of one symbol name, which is not in the source.  Section 4.1 and the
    glossary: a stronger (non-weak) definition of the same name silently
    replaces a weak one, without a multiple-definition error; with no
    stronger definition the weak default is the one invoked.  The
    multiple-definition error is that of two non-weak definitions; among weak
    definitions only, the first one met is taken. *)
Definition resolve (name : string) (objs : list object) : linked :=
  let defs := definitions name objs in
  match List.filter is_global defs with
  | [d] => Resolved (st_code d)
  | _ :: _ :: _ => MultipleDefinition
  | [] =>
      match defs with
      | d :: _ => Resolved (st_code d)
      | [] => UndefinedReference
      end
  end.

(** A call site in the linked binary runs the definition the linker chose;
    there is no binary when the link failed. *)
Definition call_linked (name : string) (objs : list object) (c : call)
  : option (prog unit) :=
  match resolve name objs with
  | Resolved f => Some (invoke f c)
  | _ => None
  end.

(** The object compiled from [weak_on_trace.c]. *)
Definition weak_on_trace_o : object :=
  [Symbol "_on_trace" STB_WEAK _on_trace].

(** An object of another translation unit that defines the hook without the
    attribute, with body [f]. *)
Definition strong_on_trace_o (f : hook_t) : object :=
  [Symbol "_on_trace" STB_GLOBAL f].

End Linker.

(** The override of the spec's second end-to-end scenario: a definition that
    counts its calls in the cell [ctr]. *)
Definition counting_hook (ctr : ptr) : hook_t :=
  fun _ _ _ => Do (Load ctr) (fun v => Do (Store ctr (v + 1)) (fun _ => Ret tt)).

(** ** Threads

    Threads share one state and run interleaved, one machine operation at a
    time, in the order a schedule gives. *)

Module Threads.

Inductive tstep :=
| Finished
| Waiting (l : nat)
| Faulted (f : fault)
| Stepped (p : prog unit) (s : state) (ev : event).

Definition step_thread (p : prog unit) (s : state) : tstep :=
  match p with
  | Ret _ => Finished
  | Do o k =>
      match perform o s with
      | inl (WouldBlock l) => Waiting l
      | inl f => Faulted f
      | inr (x, s', ev) => Stepped (k x) s' ev
      end
  end.

Inductive pool_outcome :=
| PoolAt (pool : list (prog unit)) (s : state) (tr : list (nat * event))
| PoolCrash (i : nat) (f : fault) (tr : list (nat * event)).

Definition pool_log (i : nat) (ev : event) (o : pool_outcome)
  : pool_outcome :=
  match o with
  | PoolAt pool s tr => PoolAt pool s ((i, ev) :: tr)
  | PoolCrash j f tr => PoolCrash j f ((i, ev) :: tr)
  end.

(** [sched] names, step by step, the thread that runs next; a finished,
    waiting or missing thread costs the step and changes nothing. *)
Fixpoint run_pool (sched : list nat) (pool : list (prog unit)) (s : state)
  : pool_outcome :=
  match sched with
  | [] => PoolAt pool s []
  | i :: rest =>
      match pool !! i with
      | None => run_pool rest pool s
      | Some p =>
          match step_thread p s with
          | Finished | Waiting _ => run_pool rest pool s
          | Faulted f => PoolCrash i f []
          | Stepped p' s' ev =>
              pool_log i ev (run_pool rest (<[i := p']> pool) s')
          end
      end
  end.

(** The memory access a thread is about to make: address, and whether it
    writes. *)
Definition next_access (p : prog unit) : option (ptr * bool) :=
  match p with
  | Do (Load a) _ => Some (a, false)
  | Do (Store a _) _ => Some (a, true)
  | _ => None
  end.

Definition conflict (x y : ptr * bool) : bool :=
  bool_decide (fst x = fst y) && (snd x || snd y).

(** A data race: two different threads are about to access the same cell
    and one of them writes. *)
Definition racy (pool : list (prog unit)) : Prop :=
  exists (i j : nat) (p q : prog unit) (x y : ptr * bool),
    i <> j /\ pool !! i = Some p /\ pool !! j = Some q /\
    next_access p = Some x /\ next_access q = Some y /\
    conflict x y = true.

(** The pool in which thread [i] makes the calls [css !! i] to [h]. *)
Definition spawn (h : hook_t) (css : list (list call)) : list (prog unit) :=
  map (call_seq h) css.

End Threads.

(** ** Instrumented code

    A caller that reports to the hook [h] before each machine operation it
    performs and once more before it returns; [site] chooses the arguments of
    the call made before an operation, [last] those of the final call. *)

Fixpoint instrument {R : Type} (h : hook_t)
  (site : forall X : Type, op X -> call) (last : call) (p : prog R)
  : prog R :=
  match p with
  | Ret r => bind (invoke h last) (fun _ => Ret r)
  | Do o k =>
      bind (invoke h (site _ o))
        (fun _ => Do o (fun x => instrument h site last (k x)))
  end.

(** The threads [extra], put beside those of a pool that has run. *)
Definition beside (extra : list (prog unit)) (o : Threads.pool_outcome)
  : Threads.pool_outcome :=
  match o with
  | Threads.PoolAt pool s tr => Threads.PoolAt (pool ++ extra) s tr
  | Threads.PoolCrash i f tr => Threads.PoolCrash i f tr
  end.

(** The two ways a link ends, as tests. *)
Definition is_resolved (l : Linker.linked) : bool :=
  match l with
  | Linker.Resolved _ => true
  | _ => false
  end.

Definition is_clash (l : Linker.linked) : bool :=
  match l with
  | Linker.MultipleDefinition => true
  | _ => false
  end.

(** ** Facts about the machine *)

Section Machine_facts.

Context {A B : Type}.

Lemma after_nil (o : outcome B) : after [] o = o.
Proof. destruct o; reflexivity. Qed.

Lemma log_after (ev : event) (tr : list event) (o : outcome B) :
  log ev (after tr o) = after (ev :: tr) o.
Proof. destruct o; reflexivity. Qed.

(** Running [p] and then [f] is running [p], and [f] from where [p] ended. *)
Lemma exec_bind (p : prog A) (f : A -> prog B) (s : state) :
  exec (bind p f) s =
  match exec p s with
  | Returns a s' tr => after tr (exec (f a) s')
  | Crashes e tr => Crashes e tr
  end.
Proof.
  revert s. induction p as [a | X o k IH]; intros s; simpl.
  - symmetry. apply after_nil.
  - destruct (perform o s) as [e | [[x s'] ev]]; [reflexivity |].
    rewrite IH. destruct (exec (k x) s') as [a s'' tr | e tr]; simpl.
    + apply log_after.
    + reflexivity.
Qed.

End Machine_facts.

(** ** The default hook, run *)

(** The body is empty: the call returns at once, in the state it was made
    in, and the machine was asked nothing. *)
Lemma exec_on_trace (event_id : uint) (data : ptr) (length : size_t)
  (s : state) :
  exec (_on_trace event_id data length) s = Returns tt s [].
Proof. reflexivity. Qed.

Lemma exec_invoke_on_trace (c : call) (s : state) :
  exec (invoke _on_trace c) s = Returns tt s [].
Proof. destruct c as [e d n]. apply exec_on_trace. Qed.

(** Any number of calls in a row. *)
Lemma exec_call_seq_on_trace (cs : list call) (s : state) :
  exec (call_seq _on_trace cs) s = Returns tt s [].
Proof.
  induction cs as [| c rest IH]; cbn [call_seq].
  - reflexivity.
  - rewrite exec_bind, exec_invoke_on_trace, IH. reflexivity.
Qed.

Lemma call_seq_on_trace_ret (cs : list call) :
  call_seq _on_trace cs = Ret tt.
Proof.
  induction cs as [| [e d n] rest IH]; simpl; [reflexivity | exact IH].
Qed.

(** C1: for every event id, buffer pointer and length, and from every state,
    the default hook returns with no observable effect: memory, the
    allocation table, the output produced so far and the locks are what they
    were before the call, and no machine operation was performed. *)
Theorem on_trace_no_observable_effect
  (event_id : uint) (data : ptr) (length : size_t) (s : state) :
  exists (s' : state) (tr : list event),
    exec (_on_trace event_id data length) s = Returns tt s' tr /\
    mem s' = mem s /\ heap s' = heap s /\ out s' = out s /\
    held s' = held s /\
    existsb is_write tr = false /\ existsb is_output tr = false /\
    tr = [].
Proof. exists s, []. rewrite exec_on_trace. repeat split. Qed.

(** C2: for every input the call succeeds: it returns (the unit value, there
    being no result), and it is never one of the machine's faults. *)
Theorem on_trace_always_succeeds
  (event_id : uint) (data : ptr) (length : size_t) (s : state) :
  succeeds (exec (_on_trace event_id data length) s) = true /\
  returned (exec (_on_trace event_id data length) s) = Some tt /\
  forall (f : fault) (tr : list event),
    exec (_on_trace event_id data length) s <> Crashes f tr.
Proof.
  rewrite exec_on_trace. repeat split. intros f tr. discriminate.
Qed.

(** C4: with the null pointer and length 0 the call does not fail, and its
    trace holds no load and no store, of the buffer or of anything else; this
    from every state, those in which address 0 is unmapped included. *)
Theorem on_trace_null_empty_buffer (event_id : uint) (s : state) :
  succeeds (exec (_on_trace event_id NULL 0) s) = true /\
  existsb is_deref (trace_of (exec (_on_trace event_id NULL 0) s)) = false /\
  trace_of (exec (_on_trace event_id NULL 0) s) = [].
Proof. rewrite exec_on_trace. repeat split. Qed.

(** C5: every call terminates, at once: it returns after zero machine
    operations, so it neither takes or releases a lock nor yields; as a
    thread it is finished before its first step and never waiting; and the
    locks and allocations are the same after as before. *)
Theorem on_trace_completes_immediately
  (event_id : uint) (data : ptr) (length : size_t) (s : state) :
  succeeds (exec (_on_trace event_id data length) s) = true /\
  List.length (trace_of (exec (_on_trace event_id data length) s)) = 0%nat /\
  existsb is_sync (trace_of (exec (_on_trace event_id data length) s))
    = false /\
  Threads.step_thread (_on_trace event_id data length) s
    = Threads.Finished /\
  held <$> final_state (exec (_on_trace event_id data length) s)
    = Some (held s) /\
  heap <$> final_state (exec (_on_trace event_id data length) s)
    = Some (heap s).
Proof. rewrite exec_on_trace. repeat split. Qed.

(** C6: the buffer is not mutated, not freed and not retained: after the
    call its cells read as before (an unmapped cell still unmapped), the
    allocation table is the same, all of memory is the same so that no cell
    anywhere has come to hold a reference to it, and the trace has no
    writing event and no event at any address. *)
Theorem on_trace_buffer_untouched
  (event_id : uint) (data : ptr) (length : size_t) (s : state) :
  read_buffer data length
    <$> final_state (exec (_on_trace event_id data length) s)
    = Some (read_buffer data length s) /\
  heap <$> final_state (exec (_on_trace event_id data length) s)
    = Some (heap s) /\
  mem <$> final_state (exec (_on_trace event_id data length) s)
    = Some (mem s) /\
  existsb is_write (trace_of (exec (_on_trace event_id data length) s))
    = false /\
  forall a : ptr,
    existsb (touches a)
      (trace_of (exec (_on_trace event_id data length) s)) = false.
Proof. rewrite exec_on_trace. repeat split. Qed.

(** C7: the behaviour does not depend on the arguments: two calls with any
    arguments, in range or not, are the same program, and from the same
    state they have the same outcome, which is a return with an empty trace;
    nothing is validated.  Nor does what the call does depend on what memory
    holds: from any two states the returned value and the trace are the
    same. *)
Theorem on_trace_input_independent
  (event_id1 event_id2 : uint) (data1 data2 : ptr)
  (length1 length2 : size_t) (s t : state) :
  _on_trace event_id1 data1 length1 = _on_trace event_id2 data2 length2 /\
  exec (_on_trace event_id1 data1 length1) s
    = exec (_on_trace event_id2 data2 length2) s /\
  succeeds (exec (_on_trace event_id1 data1 length1) s) = true /\
  trace_of (exec (_on_trace event_id1 data1 length1) s) = [] /\
  returned (exec (_on_trace event_id1 data1 length1) s)
    = returned (exec (_on_trace event_id2 data2 length2) t) /\
  trace_of (exec (_on_trace event_id1 data1 length1) s)
    = trace_of (exec (_on_trace event_id2 data2 length2) t).
Proof. rewrite !exec_on_trace. repeat split. Qed.

(** ** Linking *)

Import Linker.

Lemma definitions_app (name : string) (xs ys : list object) :
  definitions name (xs ++ ys) = definitions name xs ++ definitions name ys.
Proof. unfold definitions. rewrite concat_app. apply List.filter_app. Qed.

Lemma definitions_cons (name : string) (o : object) (ys : list object) :
  definitions name (o :: ys) = definitions name [o] ++ definitions name ys.
Proof. apply (definitions_app name [o] ys). Qed.

Lemma definitions_with_weak (pre post : list object) :
  definitions "_on_trace" (pre ++ weak_on_trace_o :: post)
    = definitions "_on_trace" pre
        ++ Symbol "_on_trace" STB_WEAK _on_trace
        :: definitions "_on_trace" post.
Proof.
  rewrite definitions_app, (definitions_cons _ weak_on_trace_o).
  reflexivity.
Qed.

(** A weak definition adds nothing to the global ones. *)
Lemma globals_with_weak (pre post : list object) :
  List.filter is_global
    (definitions "_on_trace" (pre ++ weak_on_trace_o :: post))
    = List.filter is_global (definitions "_on_trace" (pre ++ post)).
Proof.
  rewrite definitions_with_weak, definitions_app, !List.filter_app.
  reflexivity.
Qed.








(** ** Threads that call the hook *)

Import Threads.

(** A pool whose threads have all returned stays as it is under any
    schedule. *)
Lemma run_pool_finished (sched : list nat) (pool : list (prog unit))
  (s : state) :
  Forall (fun p => p = Ret tt) pool ->
  run_pool sched pool s = PoolAt pool s [].
Proof.
  intros Hpool. induction sched as [| i rest IH]; simpl; [reflexivity |].
  destruct (pool !! i) as [p |] eqn:Hi; [| exact IH].
  rewrite Forall_lookup in Hpool. rewrite (Hpool i p Hi). exact IH.
Qed.

Lemma spawn_on_trace_finished (css : list (list call)) :
  Forall (fun p => p = Ret tt) (spawn _on_trace css).
Proof.
  unfold spawn. apply Forall_map, Forall_forall. intros cs _.
  apply call_seq_on_trace_ret.
Qed.

(** C8: any number of threads, each making any calls to the default hook,
    run under any schedule without synchronisation: no thread faults, the
    shared state at the end is the one at the start, no operation on it was
    performed, no thread is ever about to access memory, and so no two
    threads race. *)
Theorem on_trace_thread_safe
  (css : list (list call)) (sched : list nat) (s : state) :
  run_pool sched (spawn _on_trace css) s
    = PoolAt (spawn _on_trace css) s [] /\
  Forall (fun p => next_access p = None) (spawn _on_trace css) /\
  ~ racy (spawn _on_trace css).
Proof.
  pose proof (spawn_on_trace_finished css) as Hfin.
  split; [apply run_pool_finished, Hfin |].
  split.
  - eapply Forall_impl; [exact Hfin |]. intros p ->. reflexivity.
  - intros (i & j & p & q & x & y & _ & Hp & _ & Hx & _).
    rewrite Forall_lookup in Hfin. rewrite (Hfin i p Hp) in Hx.
    discriminate.
Qed.

(** ** Arguments the specification rules out *)

(** C9: the default never reads the buffer, so a null pointer with a
    nonzero length, which the caller's obligation of the specification
    excludes, is as safe as any other input: the call returns in the same
    state and its trace has no load or store and no event at any address. *)
Theorem on_trace_null_nonzero_length
  (event_id : uint) (length : size_t) (s : state)
  (Hrange : is_size_t length) (Hlen : length <> 0)
  (Hnull : mem s !! NULL = None) :
  ~ spec_valid_buffer s NULL length /\
  succeeds (exec (_on_trace event_id NULL length) s) = true /\
  final_state (exec (_on_trace event_id NULL length) s) = Some s /\
  existsb is_deref (trace_of (exec (_on_trace event_id NULL length) s))
    = false /\
  forall a : ptr,
    existsb (touches a)
      (trace_of (exec (_on_trace event_id NULL length) s)) = false.
Proof.
  split.
  - intros [Hz | Hread]; [exact (Hlen Hz) |].
    destruct Hrange as [Hlo _].
    assert (Hin : 0 <= 0 < length) by lia.
    destruct (Hread 0 Hin) as [v Hv].
    rewrite Z.add_0_r in Hv. congruence.
  - rewrite exec_on_trace. repeat split.
Qed.

Lemma on_trace_null_nonzero_length_witness :
  ~ spec_valid_buffer (State ∅ ∅ [] ∅) NULL 4 /\
  succeeds (exec (_on_trace 9 NULL 4) (State ∅ ∅ [] ∅)) = true.
Proof.
  pose proof (on_trace_null_nonzero_length 9 4 (State ∅ ∅ [] ∅)) as H.
  destruct H as (Hinvalid & Hok & _).
  - unfold is_size_t. lia.
  - lia.
  - reflexivity.
  - split; [exact Hinvalid | exact Hok].
Defined.

(** ** Sequences of calls *)

(** C10: any finite sequence of calls to the default hook, with any
    arguments, has the outcome of no call at all and ends in the state it
    started in; a call made twice has the outcome of the call made once; and
    two calls in either order have the same outcome. *)
Theorem on_trace_calls_are_no_calls
  (cs : list call) (c1 c2 : call) (s : state) :
  exec (call_seq _on_trace cs) s = exec (call_seq _on_trace []) s /\
  final_state (exec (call_seq _on_trace cs) s) = Some s /\
  exec (call_seq _on_trace [c1; c1]) s = exec (call_seq _on_trace [c1]) s /\
  exec (call_seq _on_trace [c1; c2]) s
    = exec (call_seq _on_trace [c2; c1]) s.
Proof. rewrite !exec_call_seq_on_trace. repeat split. Qed.

(** ** The two end-to-end scenarios of the specification, and contrasts *)

(** Scenario 1: only the weak default is linked; [on_trace(1, "ab", 2)] with
    the two bytes at address 4096 returns normally, prints nothing and
    leaves the bytes in place. *)
Example scenario_default_only :
  call_linked "_on_trace" [weak_on_trace_o] (Call 1 4096 2)
    = Some (_on_trace 1 4096 2) /\
  exec (_on_trace 1 4096 2) (State {[4096 := 97; 4097 := 98]} ∅ [] ∅)
    = Returns tt (State {[4096 := 97; 4097 := 98]} ∅ [] ∅) [] /\
  read_buffer 4096 2 (State {[4096 := 97; 4097 := 98]} ∅ [] ∅)
    = [Some 97; Some 98].
Proof. repeat split. Qed.

(** Scenario 2: a strong definition that counts its calls is linked as well;
    two calls [on_trace(7, null, 0)] leave the counter at 2, which the
    default would have left at 0. *)
Example scenario_strong_override :
  resolve "_on_trace" [weak_on_trace_o; strong_on_trace_o (counting_hook 4096)]
    = Resolved (counting_hook 4096) /\
  (mem <$> final_state
     (exec (call_seq (counting_hook 4096) [Call 7 NULL 0; Call 7 NULL 0])
        (State {[4096 := 0]} ∅ [] ∅))) ≫= (fun m => m !! 4096)
    = Some 2 /\
  (mem <$> final_state
     (exec (call_seq _on_trace [Call 7 NULL 0; Call 7 NULL 0])
        (State {[4096 := 0]} ∅ [] ∅))) ≫= (fun m => m !! 4096)
    = Some 0.
Proof. repeat split. Qed.

(** Without the attribute the same link fails: two global definitions of one
    name. *)
Example two_strong_definitions_clash :
  resolve "_on_trace"
    [strong_on_trace_o _on_trace; strong_on_trace_o (counting_hook 4096)]
    = MultipleDefinition.
Proof. reflexivity. Qed.

(** The machine does fault on a null dereference: a hook that read its
    buffer would not survive the null pointer. *)
Example reading_hook_faults_on_null :
  exec (Do (Load NULL) (fun _ => Ret tt)) (State ∅ ∅ [] ∅)
    = Crashes (SegFault NULL) [].
Proof. reflexivity. Qed.

(** Thread safety is a property of the empty body, not of the pool: two
    threads calling the counting override race after one step, and an
    interleaved schedule loses an update. *)
Example counting_hook_races :
  exists pool s tr,
    run_pool [0%nat]
      (spawn (counting_hook 4096) [[Call 7 NULL 0]; [Call 7 NULL 0]])
      (State {[4096 := 0]} ∅ [] ∅) = PoolAt pool s tr /\
    racy pool.
Proof.
  eexists _, _, _. split; [reflexivity |].
  exists 0%nat, 1%nat. eexists _, _, (4096, true), (4096, false).
  split; [discriminate |].
  split; [reflexivity |].
  split; [reflexivity |].
  split; [reflexivity |].
  split; reflexivity.
Qed.

Example counting_hook_lost_update :
  match run_pool [0; 1; 0; 1]%nat
          (spawn (counting_hook 4096) [[Call 7 NULL 0]; [Call 7 NULL 0]])
          (State {[4096 := 0]} ∅ [] ∅) with
  | PoolAt _ s _ => mem s !! 4096
  | PoolCrash _ _ _ => None
  end = Some 1.
Proof. reflexivity. Qed.

(** ** The default hook inside other code *)

(** A program instrumented with calls to the default hook, before each of
    its operations and before its return, with whatever arguments, runs as
    the program itself does: same result or fault, same final state, same
    trace. *)
Theorem instrument_on_trace_transparent {R : Type}
  (site : forall X : Type, op X -> call) (last : call) (p : prog R)
  (s : state) :
  exec (instrument _on_trace site last p) s = exec p s.
Proof.
  revert s. induction p as [r | X o k IH]; intros s.
  - cbn [instrument]. rewrite exec_bind, exec_invoke_on_trace. reflexivity.
  - cbn [instrument]. rewrite exec_bind, exec_invoke_on_trace, after_nil.
    cbn [exec]. destruct (perform o s) as [e | [[x s'] ev]]; [reflexivity |].
    rewrite IH. reflexivity.
Qed.

(** The same with another hook is not so: instrumented with the counting
    override, a program that only returns leaves a trace. *)
Example instrument_counting_hook_visible :
  trace_of
    (exec (instrument (counting_hook 4096) (fun _ _ => Call 7 NULL 0)
             (Call 7 NULL 0) (Ret tt))
       (State {[4096 := 0]} ∅ [] ∅))
    = [EvLoad 4096 0; EvStore 4096 1].
Proof. reflexivity. Qed.

(** ** Hook threads beside other threads *)

Lemma pool_log_beside (extra : list (prog unit)) (i : nat) (ev : event)
  (o : pool_outcome) :
  pool_log i ev (beside extra o) = beside extra (pool_log i ev o).
Proof. destruct o; reflexivity. Qed.

(** Threads that have returned, appended to a pool, change nothing of its
    run. *)
Lemma run_pool_beside_finished (extra : list (prog unit)) (sched : list nat) :
  Forall (fun p => p = Ret tt) extra ->
  forall (others : list (prog unit)) (s : state),
    run_pool sched (others ++ extra) s
      = beside extra (run_pool sched others s).
Proof.
  intros Hextra. induction sched as [| i rest IH]; intros others s;
    cbn [run_pool]; [reflexivity |].
  destruct (others !! i) as [p |] eqn:Hi.
  - rewrite (lookup_app_l_Some _ _ _ _ Hi).
    destruct (step_thread p s) as [| l | f | p' s' ev]; try apply IH.
    + reflexivity.
    + rewrite insert_app_l by (eapply lookup_lt_Some; exact Hi).
      rewrite IH. apply pool_log_beside.
  - apply lookup_ge_None in Hi. rewrite (lookup_app_r _ _ _ Hi).
    destruct (extra !! (i - base.length others)%nat) as [q |] eqn:Hq;
      [| apply IH].
    rewrite Forall_lookup in Hextra. rewrite (Hextra _ _ Hq).
    apply IH.
Qed.

Lemma racy_beside_finished (extra others : list (prog unit)) :
  Forall (fun p => p = Ret tt) extra ->
  racy (others ++ extra) <-> racy others.
Proof.
  intros Hextra. rewrite Forall_lookup in Hextra.
  assert (Hin : forall (i : nat) (p : prog unit) (x : Z * bool),
            (others ++ extra) !! i = Some p -> next_access p = Some x ->
            others !! i = Some p).
  { intros i p x Hp Hx. apply lookup_app_Some in Hp as [Hp | [_ Hp]].
    - exact Hp.
    - rewrite (Hextra _ _ Hp) in Hx. discriminate. }
  split.
  - intros (i & j & p & q & x & y & Hij & Hp & Hq & Hx & Hy & Hc).
    exists i, j, p, q, x, y. eauto 10.
  - intros (i & j & p & q & x & y & Hij & Hp & Hq & Hx & Hy & Hc).
    exists i, j, p, q, x, y.
    repeat split; try assumption; apply lookup_app_l_Some; assumption.
Qed.

(** Threads that call the default hook, with any arguments, do not disturb
    the threads they run beside: under every schedule the other threads end
    as they would alone (same final programs, same shared state, same
    interleaved trace, same crash), and the pool has a race exactly when the
    other threads have one among themselves. *)
Theorem on_trace_threads_do_not_interfere
  (others : list (prog unit)) (css : list (list call)) (sched : list nat)
  (s : state) :
  run_pool sched (others ++ spawn _on_trace css) s
    = beside (spawn _on_trace css) (run_pool sched others s) /\
  (racy (others ++ spawn _on_trace css) <-> racy others).
Proof.
  split.
  - apply run_pool_beside_finished, spawn_on_trace_finished.
  - apply racy_beside_finished, spawn_on_trace_finished.
Qed.

(** ** The default in an arbitrary link *)

(** With the object of [weak_on_trace.c] anywhere in a link, whatever the
    other objects define, [_on_trace] is never an undefined reference: the
    name resolves unless the other objects clash among themselves, and the
    link has a multiple-definition error exactly when it has one without the
    default. *)
Theorem weak_on_trace_never_breaks_link (pre post : list object) :
  is_resolved (resolve "_on_trace" (pre ++ weak_on_trace_o :: post))
    = negb (is_clash (resolve "_on_trace" (pre ++ post))) /\
  is_clash (resolve "_on_trace" (pre ++ weak_on_trace_o :: post))
    = is_clash (resolve "_on_trace" (pre ++ post)).
Proof.
  unfold resolve. rewrite globals_with_weak.
  destruct (List.filter is_global (definitions "_on_trace" (pre ++ post)))
    as [| d [| d' l]]; [| split; reflexivity | split; reflexivity].
  rewrite definitions_with_weak.
  destruct (definitions "_on_trace" pre) as [| d l];
    destruct (definitions "_on_trace" (pre ++ post)) as [| d' l'];
    split; reflexivity.
Qed.

(** Two weak definitions do not clash either; the first one met is taken. *)
Example two_weak_definitions_link :
  resolve "_on_trace"
    [weak_on_trace_o; [Symbol "_on_trace" STB_WEAK (counting_hook 4096)]]
    = Resolved _on_trace.
Proof. reflexivity. Qed.
